(** * tfjs-backend-wasm/src/util.h: [size_from_shape] and [log_vector]

    A shallow embedding of the two helpers of namespace [tfjs::util] and the
    properties of them that the specification states.

    The backend is compiled to WebAssembly (wasm32), where C++ [int] is a
    32-bit two's-complement integer and [*=] on it is [i32.mul].  An [int] is
    modelled as a [Z] in the range of [Int32.in_range]; the multiplication
    writes the wrap-around out.  (ISO C++ leaves signed overflow undefined;
    the embedding follows the arithmetic of the compilation target.) *)

From Stdlib Require Import ZArith List String Ascii Lia Permutation Relations.
From Stdlib Require Import Numbers.DecimalString Numbers.DecimalPos
  Numbers.DecimalZ.
Import ListNotations.

Local Open Scope Z_scope.

(* ================================================================= *)
(** ** 32-bit signed integers *)

Module Int32.

Definition modulus : Z := 2 ^ 32.
Definition half_modulus : Z := 2 ^ 31.
Definition min_int : Z := - half_modulus.
Definition max_int : Z := half_modulus - 1.

(** A value that a C++ [int] can hold. *)
Definition in_range (z : Z) : Prop := min_int <= z <= max_int.

Definition in_rangeb (z : Z) : bool := (min_int <=? z) && (z <=? max_int).

(** Reduction modulo [2^32] to the signed representative. *)
Definition wrap (z : Z) : Z := (z + half_modulus) mod modulus - half_modulus.

(** [a * b] on [int]: the low 32 bits of the product, read as signed. *)
Definition mul (a b : Z) : Z := wrap (a * b).

End Int32.

(* ================================================================= *)
(** ** [size_from_shape] *)

(** The product of the extents over the mathematical integers, accumulated
    from the left starting from 1.  This is the reference the program is
    compared with, not a translation of it. *)
Definition shape_product (shape : list Z) : Z :=
  fold_left Z.mul shape 1.

(** [[
    inline int size_from_shape(const std::vector<int>& shape) {
      int prod = 1;
      for (const auto& v : shape) {
        prod *= v;
      }
      return prod;
    }
    ]] *)
Definition size_from_shape (shape : list Z) : Z :=
  fold_left (fun prod v => Int32.mul prod v) shape 1.

(** *** The loop, one iteration at a time

    The same function as a transition system.  A frame holds everything an
    activation of [size_from_shape] can see: the diagnostic stream of the
    process (the one piece of state that the other helper of this header
    writes), the local [prod], and the part of [shape] that the range-for
    still has to visit. *)

(** The text written to stdout so far, one entry per [printf] call, oldest
    first. *)
Definition stream : Type := list string.

Record frame : Type := Frame {
  fr_stdout : stream;
  fr_prod : Z;
  fr_rest : list Z
}.

(** Entry: [int prod = 1;] with the iterator at [shape.begin()]. *)
Definition enter (out : stream) (shape : list Z) : frame :=
  Frame out 1 shape.

(** One iteration of the body, [prod *= v;]. *)
Inductive step : frame -> frame -> Prop :=
| step_mul : forall out prod v rest,
    step (Frame out prod (v :: rest)) (Frame out (Int32.mul prod v) rest).

Definition steps : frame -> frame -> Prop := clos_refl_trans_1n frame step.

(** The iterator reached [shape.end()]: [return prod;]. *)
Definition at_return (f : frame) : Prop := fr_rest f = [].

(** A complete call: started with stdout [out] on [shape], it returned [r]
    and left stdout as [out']. *)
Definition returns (out : stream) (shape : list Z) (r : Z) (out' : stream)
  : Prop :=
  exists f, steps (enter out shape) f /\ at_return f /\
            fr_prod f = r /\ fr_stdout f = out'.

(* ================================================================= *)
(** ** [log_vector] *)

(** *** stdout and [printf] *)

Local Open Scope string_scope.

(** Line feed, the character that the escape [\n] denotes. *)
Definition LF : ascii := "010"%char.

(** The characters on the stream, in the order written. *)
Definition text (out : stream) : string :=
  fold_right String.append "" out.

(** What the conversion [%d] prints for an [int]: the decimal digits without
    leading zeros, preceded by [-] when negative. *)
Definition decimal (z : Z) : string :=
  NilZero.string_of_int (Z.to_int z).

(** Reading a decimal numeral back. *)
Definition read_decimal (s : string) : option Z :=
  option_map Z.of_int (NilZero.int_of_string s).

(** Expansion of a format string.  Only the conversion [%d] occurs in this
    header; every other character is copied.  A [%d] with no argument left
    prints nothing. *)
Fixpoint format (fmt : string) (args : list Z) : string :=
  match fmt with
  | EmptyString => EmptyString
  | String c fmt' =>
      match fmt' with
      | String c' fmt'' =>
          if (Ascii.eqb c "%" && Ascii.eqb c' "d")%bool then
            match args with
            | a :: args' => decimal a ++ format fmt'' args'
            | [] => format fmt'' []
            end
          else String c (format fmt' args)
      | EmptyString => String c EmptyString
      end
  end.

(** A computation that may write to stdout. *)
Definition IO (A : Type) : Type := stream -> A * stream.

Definition ret {A : Type} (a : A) : IO A := fun out => (a, out).

Definition bind {A B : Type} (m : IO A) (k : A -> IO B) : IO B :=
  fun out => let (a, out') := m out in k a out'.

Notation "m ;; k" := (bind m (fun _ => k))
  (at level 61, right associativity).

(** One call of [printf]; its return value is discarded at every call site. *)
Definition printf (fmt : string) (args : list Z) : IO unit :=
  fun out => (tt, (out ++ [format fmt args])%list).

(** [for (auto const& value : v) body(value);] *)
Fixpoint for_each {T : Type} (v : list T) (body : T -> IO unit) : IO unit :=
  match v with
  | [] => ret tt
  | value :: rest => body value ;; for_each rest body
  end.

(** [[
    template <class T>
    inline void log_vector(const std::vector<T>& v) {
      printf("[");
      for (auto const& value : v) {
        printf("%d,", value);
      }
      printf("]\n");
    }
    ]]
    at [T = int], the type whose values [%d] is the conversion for. *)
Definition log_vector (v : list Z) : IO unit :=
  printf "[" [] ;;
  for_each v (fun value => printf "%d," [value]) ;;
  printf (String "]" (String LF "")) [].

(** What one call adds to the stream. *)
Definition emitted (v : list Z) : string :=
  text (snd (log_vector v [])).

(** Occurrences of a character in a string. *)
Fixpoint count_char (c : ascii) (s : string) : nat :=
  match s with
  | EmptyString => 0%nat
  | String c' s' => ((if Ascii.eqb c c' then 1 else 0) + count_char c s')%nat
  end.

(** One element as printed: its numeral, then a comma. *)
Definition item (value : Z) : string := decimal value ++ ",".

(** The elements printed between the brackets. *)
Definition items (v : list Z) : string := text (map item v).

(** The characters a numeral printed by [%d] is made of. *)
Definition numeral_char (c : ascii) : bool :=
  existsb (Ascii.eqb c)
    ["-"; "0"; "1"; "2"; "3"; "4"; "5"; "6"; "7"; "8"; "9"]%char.

(** *** Calls from two threads

    [printf] locks the stream while it writes, so the text of one [printf]
    call reaches stdout as a unit.  [log_vector] itself takes no lock: when
    two threads each run one call, the scheduler may put the [printf] calls
    of the one between those of the other. *)

(** The pieces that one call writes, one per [printf] call, in order. *)
Definition writes (v : list Z) : list string := snd (log_vector v []).

(** [interleave l1 l2 l]: [l] is a schedule of the writes [l1] of one
    thread and the writes [l2] of another, each thread's writes in its own
    order. *)
Inductive interleave {A : Type} : list A -> list A -> list A -> Prop :=
| interleave_nil : interleave [] [] []
| interleave_left : forall a l1 l2 l,
    interleave l1 l2 l -> interleave (a :: l1) l2 (a :: l)
| interleave_right : forall a l1 l2 l,
    interleave l1 l2 l -> interleave l1 (a :: l2) (a :: l).

(** The lines of two concurrent calls are never interleaved: whatever the
    schedule, stdout receives one whole line and then the other. *)
Definition lines_not_interleaved (v1 v2 : list Z) : Prop :=
  forall out : stream,
    interleave (writes v1) (writes v2) out ->
    text out = emitted v1 ++ emitted v2
    \/ text out = emitted v2 ++ emitted v1.

(** A whole output of one of the [printf] calls of [log_vector], for an
    element among [vs]. *)
Definition piece (vs : list Z) (s : string) : Prop :=
  s = "["
  \/ s = String "]" (String LF "")
  \/ exists value : Z, In value vs /\ s = item value.

Local Close Scope string_scope.

(* ================================================================= *)
(** ** Evaluation on the inputs named in the specification *)

Example size_from_shape_2_3_4 : size_from_shape [2; 3; 4] = 24.
Proof. reflexivity. Qed.

Example size_from_shape_5 : size_from_shape [5] = 5.
Proof. reflexivity. Qed.

Example size_from_shape_0_3_4 : size_from_shape [0; 3; 4] = 0.
Proof. reflexivity. Qed.

Example size_from_shape_negative : size_from_shape [-2; 3] = -6.
Proof. reflexivity. Qed.

Example size_from_shape_sign_flip : size_from_shape [-2; -3] = 6.
Proof. reflexivity. Qed.

Example emitted_negative :
  emitted [-7; 0; 2147483647] = ("[-7,0,2147483647,]" ++ String LF "")%string.
Proof. reflexivity. Qed.

(* ================================================================= *)
(** ** Facts about 32-bit arithmetic *)

Section Int32Facts.

Import Int32.

Lemma modulus_value : modulus = 4294967296.
Proof. reflexivity. Qed.

Lemma half_modulus_value : half_modulus = 2147483648.
Proof. reflexivity. Qed.

Lemma in_rangeb_spec (z : Z) : in_rangeb z = true <-> in_range z.
Proof.
  unfold in_rangeb, in_range.
  rewrite Bool.andb_true_iff, !Z.leb_le. tauto.
Qed.

Lemma wrap_in_range (z : Z) : in_range (wrap z).
Proof.
  unfold in_range, wrap, min_int, max_int.
  rewrite modulus_value, half_modulus_value.
  pose proof (Z.mod_pos_bound (z + 2147483648) 4294967296 eq_refl).
  lia.
Qed.

(** [wrap] subtracts a multiple of the modulus. *)
Lemma wrap_quotient (z : Z) :
  wrap z = z - modulus * ((z + half_modulus) / modulus).
Proof.
  unfold wrap. rewrite Z.mod_eq by (rewrite modulus_value; lia). lia.
Qed.

Lemma wrap_congruent (z : Z) : wrap z mod modulus = z mod modulus.
Proof.
  rewrite wrap_quotient.
  replace (z - modulus * ((z + half_modulus) / modulus))
    with (z + (- ((z + half_modulus) / modulus)) * modulus) by lia.
  apply Z_mod_plus_full.
Qed.

Lemma wrap_small (z : Z) : in_range z -> wrap z = z.
Proof.
  unfold in_range, wrap, min_int, max_int.
  rewrite modulus_value, half_modulus_value. intros Hz.
  rewrite Z.mod_small; lia.
Qed.

Lemma wrap_fixed_iff (z : Z) : wrap z = z <-> in_range z.
Proof.
  split.
  - intros <-. apply wrap_in_range.
  - apply wrap_small.
Qed.

Lemma wrap_wrap (z : Z) : wrap (wrap z) = wrap z.
Proof. apply wrap_small, wrap_in_range. Qed.

(** Two integers with the same residue have the same representative. *)
Lemma wrap_eq_of_congruent (x y : Z) :
  x mod modulus = y mod modulus -> wrap x = wrap y.
Proof.
  intros Hxy. unfold wrap.
  rewrite (Z.add_mod x), (Z.add_mod y), Hxy
    by (rewrite modulus_value; lia).
  reflexivity.
Qed.

Lemma wrap_mul_l (a b : Z) : wrap (wrap a * b) = wrap (a * b).
Proof.
  apply wrap_eq_of_congruent.
  rewrite (Z.mul_mod (wrap a)), wrap_congruent, <- Z.mul_mod
    by (rewrite modulus_value; lia).
  reflexivity.
Qed.

Lemma wrap_mul_r (a b : Z) : wrap (a * wrap b) = wrap (a * b).
Proof. rewrite (Z.mul_comm a), wrap_mul_l, Z.mul_comm. reflexivity. Qed.

Lemma mul_in_range (a b : Z) : in_range (mul a b).
Proof. apply wrap_in_range. Qed.

End Int32Facts.

Create HintDb int32.
#[local] Hint Resolve wrap_in_range mul_in_range : int32.

(* ================================================================= *)
(** ** The product computed by [size_from_shape] *)

Section ShapeProduct.

Lemma fold_mul_acc (shape : list Z) (a : Z) :
  fold_left Z.mul shape a = a * shape_product shape.
Proof.
  unfold shape_product. revert a.
  induction shape as [|v shape IH]; intros a; cbn [fold_left].
  - lia.
  - rewrite (IH (a * v)), (IH (1 * v)). lia.
Qed.

Lemma shape_product_nil : shape_product [] = 1.
Proof. reflexivity. Qed.

Lemma shape_product_cons (v : Z) (shape : list Z) :
  shape_product (v :: shape) = v * shape_product shape.
Proof.
  unfold shape_product at 1. cbn [fold_left].
  rewrite fold_mul_acc. lia.
Qed.

Lemma shape_product_app (s1 s2 : list Z) :
  shape_product (s1 ++ s2) = shape_product s1 * shape_product s2.
Proof.
  induction s1 as [|v s1 IH]; cbn [app].
  - rewrite shape_product_nil. lia.
  - rewrite !shape_product_cons, IH. lia.
Qed.

Lemma shape_product_zero (shape : list Z) :
  In 0 shape -> shape_product shape = 0.
Proof.
  induction shape as [|v shape IH]; cbn [In]; [tauto|].
  rewrite shape_product_cons. intros [->|Hin].
  - reflexivity.
  - rewrite IH by assumption. lia.
Qed.

Lemma shape_product_Permutation (s s' : list Z) :
  Permutation s s' -> shape_product s = shape_product s'.
Proof.
  induction 1 as [|v s s' _ IH|v w s|s s' s'' _ IH1 _ IH2].
  - reflexivity.
  - rewrite !shape_product_cons, IH. reflexivity.
  - rewrite !shape_product_cons. lia.
  - congruence.
Qed.

(** The loop with an arbitrary accumulator on entry. *)
Lemma fold_mul32_wrap (shape : list Z) (a : Z) :
  fold_left (fun prod v => Int32.mul prod v) shape (Int32.wrap a)
  = Int32.wrap (fold_left Z.mul shape a).
Proof.
  revert a. induction shape as [|v shape IH]; intros a; simpl.
  - reflexivity.
  - unfold Int32.mul at 2. rewrite wrap_mul_l. apply IH.
Qed.

(** The program returns the signed 32-bit representative of the product. *)
Lemma size_from_shape_wrap (shape : list Z) :
  size_from_shape shape = Int32.wrap (shape_product shape).
Proof.
  unfold size_from_shape, shape_product.
  rewrite <- fold_mul32_wrap. reflexivity.
Qed.

Lemma size_from_shape_in_range (shape : list Z) :
  Int32.in_range (size_from_shape shape).
Proof. rewrite size_from_shape_wrap. auto with int32. Qed.

End ShapeProduct.

(* ================================================================= *)
(** ** The loop as a transition system *)

Section Loop.

Lemma step_deterministic (f f1 f2 : frame) :
  step f f1 -> step f f2 -> f1 = f2.
Proof.
  intros H1 H2. inversion H1; subst. inversion H2; subst. reflexivity.
Qed.

Lemma step_keeps_stdout (f f' : frame) :
  step f f' -> fr_stdout f' = fr_stdout f.
Proof. destruct 1. reflexivity. Qed.

Lemma at_return_stuck (f f' : frame) : at_return f -> ~ step f f'.
Proof.
  unfold at_return. intros Hret Hstep.
  destruct Hstep. discriminate.
Qed.

(** A frame is either at the [return] or can run one more iteration. *)
Lemma step_progress (f : frame) : at_return f \/ exists f', step f f'.
Proof.
  destruct f as [out prod [|v rest]].
  - left. reflexivity.
  - right. eexists. constructor.
Qed.

(** The loop runs to the [return], whatever the accumulator on entry. *)
Lemma steps_run (out : stream) (shape : list Z) (prod : Z) :
  steps (Frame out prod shape)
        (Frame out (fold_left (fun p v => Int32.mul p v) shape prod) []).
Proof.
  revert prod. induction shape as [|v shape IH]; intros prod; cbn [fold_left].
  - constructor 1.
  - econstructor 2; [constructor | apply IH].
Qed.

(** Wherever a run stops at the [return], it stops in the same frame. *)
Lemma steps_confluent (f f1 f2 : frame) :
  steps f f1 -> at_return f1 -> steps f f2 -> at_return f2 -> f1 = f2.
Proof.
  intros H1. revert f2.
  induction H1 as [f|f g f1 Hfg Hg1 IH]; intros f2 Hr1 H2 Hr2.
  - destruct H2 as [|g f2 Hfg _]; [reflexivity|].
    exfalso. exact (at_return_stuck _ _ Hr1 Hfg).
  - destruct H2 as [|g' f2 Hfg' Hg2].
    + exfalso. exact (at_return_stuck _ _ Hr2 Hfg).
    + rewrite (step_deterministic _ _ _ Hfg' Hfg) in Hg2. auto.
Qed.

Lemma size_from_shape_returns (out : stream) (shape : list Z) :
  returns out shape (size_from_shape shape) out.
Proof.
  exists (Frame out (size_from_shape shape) []).
  split; [apply steps_run | repeat split].
Qed.

Lemma returns_inv (out out' : stream) (shape : list Z) (r : Z) :
  returns out shape r out' -> r = size_from_shape shape /\ out' = out.
Proof.
  intros (f & Hrun & Hret & <- & <-).
  destruct (size_from_shape_returns out shape)
    as (g & Hrun' & Hret' & Hprod & Hout).
  rewrite (steps_confluent _ _ _ Hrun Hret Hrun' Hret').
  auto.
Qed.

End Loop.

(* ================================================================= *)
(** ** What [printf] and [log_vector] write *)

Section Stdout.

Local Open Scope string_scope.

Lemma append_nil_r (s : string) : s ++ "" = s.
Proof. induction s as [|c s IH]; simpl; congruence. Qed.

Lemma append_assoc (s1 s2 s3 : string) :
  (s1 ++ s2) ++ s3 = s1 ++ (s2 ++ s3).
Proof. induction s1 as [|c s1 IH]; simpl; congruence. Qed.

Lemma text_app (out1 out2 : stream) :
  text (out1 ++ out2)%list = text out1 ++ text out2.
Proof.
  unfold text. induction out1 as [|s out1 IH]; simpl.
  - reflexivity.
  - rewrite IH, append_assoc. reflexivity.
Qed.

Lemma count_char_app (c : ascii) (s1 s2 : string) :
  count_char c (s1 ++ s2) = (count_char c s1 + count_char c s2)%nat.
Proof. induction s1 as [|c1 s1 IH]; simpl; [reflexivity | lia]. Qed.

(** The digits of a numeral contain no line feed. *)
Lemma count_LF_uint (d : Decimal.uint) :
  count_char LF (NilEmpty.string_of_uint d) = 0%nat.
Proof. induction d; simpl; auto. Qed.

Lemma count_LF_nzuint (d : Decimal.uint) :
  count_char LF (NilZero.string_of_uint d) = 0%nat.
Proof.
  unfold NilZero.string_of_uint.
  destruct d; try reflexivity; apply count_LF_uint.
Qed.

Lemma count_LF_decimal (z : Z) : count_char LF (decimal z) = 0%nat.
Proof.
  unfold decimal, NilZero.string_of_int.
  destruct (Z.to_int z) as [d|d].
  - apply count_LF_nzuint.
  - cbn [count_char]. rewrite count_LF_nzuint. reflexivity.
Qed.

(** [decimal] prints the numeral of its argument: reading it gives the
    argument back. *)
Lemma read_decimal_decimal (z : Z) : read_decimal (decimal z) = Some z.
Proof.
  unfold read_decimal, decimal.
  rewrite NilZero.isi.
  - simpl. rewrite DecimalZ.of_to. reflexivity.
  - destruct z; simpl; try discriminate.
    intros [= H]. exact (Unsigned.to_uint_nonnil _ H).
  - destruct z; simpl; try discriminate.
    intros [= H]. exact (Unsigned.to_uint_nonnil _ H).
Qed.

Lemma decimal_inj (z1 z2 : Z) : decimal z1 = decimal z2 -> z1 = z2.
Proof.
  intros H. apply (f_equal read_decimal) in H.
  rewrite !read_decimal_decimal in H. congruence.
Qed.

(** The three format strings of [log_vector]. *)
Lemma format_open : format "[" [] = "[".
Proof. reflexivity. Qed.

Lemma format_item (value : Z) : format "%d," [value] = item value.
Proof. reflexivity. Qed.

Lemma format_close :
  format (String "]" (String LF "")) [] = String "]" (String LF "").
Proof. reflexivity. Qed.

Lemma for_each_printf (v : list Z) (out : stream) :
  for_each v (fun value => printf "%d," [value]) out
  = (tt, (out ++ map item v)%list).
Proof.
  revert out. induction v as [|value v IH]; intros out.
  - simpl. unfold ret. rewrite app_nil_r. reflexivity.
  - cbn [for_each map]. unfold bind at 1, printf at 1.
    rewrite IH, format_item, <- app_assoc. reflexivity.
Qed.

(** One call appends [length v + 2] pieces to the stream, each by a
    [printf] call of its own. *)
Lemma log_vector_writes (v : list Z) (out : stream) :
  log_vector v out
  = (tt, (out ++ ["["] ++ map item v
              ++ [String "]" (String LF "")])%list).
Proof.
  unfold log_vector, bind, printf.
  rewrite for_each_printf, format_open, format_close, <- !app_assoc.
  reflexivity.
Qed.

Lemma log_vector_calls (v : list Z) (out : stream) :
  List.length (snd (log_vector v out))
  = (List.length out + (List.length v + 2))%nat.
Proof.
  rewrite log_vector_writes. cbn [snd].
  rewrite !length_app, length_map. simpl. lia.
Qed.

Lemma count_LF_items (v : list Z) : count_char LF (items v) = 0%nat.
Proof.
  unfold items. induction v as [|value v IH]; [reflexivity|].
  cbn [map text fold_right]. fold (text (map item v)). unfold item at 1.
  rewrite !count_char_app, count_LF_decimal, IH. reflexivity.
Qed.

Lemma text_log_vector (v : list Z) (out : stream) :
  text (snd (log_vector v out))
  = text out ++ "[" ++ items v ++ String "]" (String LF "").
Proof.
  rewrite log_vector_writes. cbn [snd].
  rewrite !text_app. unfold items. reflexivity.
Qed.

End Stdout.

(* ================================================================= *)
(** ** Properties of [size_from_shape] *)

(** Decides a range side condition on a closed integer. *)
Ltac int32_range :=
  rewrite <- in_rangeb_spec; vm_compute; try reflexivity; try discriminate.

(** C1, as stated, fails: on the shape [[65536; 65536]], whose extents are
    both valid [int]s, [size_from_shape] returns 0 while the arithmetic
    product of the extents is 4294967296. *)
Lemma size_from_shape_not_arithmetic_product :
  Forall Int32.in_range [65536; 65536]
  /\ shape_product [65536; 65536] = 4294967296
  /\ size_from_shape [65536; 65536] = 0
  /\ size_from_shape [65536; 65536] <> shape_product [65536; 65536].
Proof.
  split; [|split; [|split]].
  - repeat constructor; discriminate.
  - reflexivity.
  - reflexivity.
  - discriminate.
Qed.

(** C1, amended: for every shape whose arithmetic product (accumulated from
    the left starting from 1) is representable as a 32-bit signed [int],
    [size_from_shape] returns that arithmetic product. *)
Theorem size_from_shape_product_in_range (shape : list Z) :
  Int32.in_range (shape_product shape) ->
  size_from_shape shape = shape_product shape.
Proof.
  intros Hrange. rewrite size_from_shape_wrap. apply wrap_small, Hrange.
Qed.

Lemma size_from_shape_product_in_range_witness :
  Int32.in_range (shape_product [2; 3; 4])
  /\ size_from_shape [2; 3; 4] = shape_product [2; 3; 4].
Proof.
  assert (H : Int32.in_range (shape_product [2; 3; 4])) by int32_range.
  split; [exact H | exact (size_from_shape_product_in_range [2; 3; 4] H)].
Defined.

(** C2: on the empty shape (rank 0, a scalar) [size_from_shape] returns
    exactly 1. *)
Theorem size_from_shape_nil : size_from_shape [] = 1.
Proof. reflexivity. Qed.

(** C3: when the mathematical product of the extents lies outside the range
    of a 32-bit signed [int], [size_from_shape] returns that product reduced
    modulo 2^32 to its two's-complement representative: a value of the
    [int] range congruent to the product, and so different from it (the
    result is not widened and no error is produced). *)
Theorem size_from_shape_overflow_wraps (shape : list Z) :
  ~ Int32.in_range (shape_product shape) ->
  size_from_shape shape = Int32.wrap (shape_product shape)
  /\ size_from_shape shape mod Int32.modulus
     = shape_product shape mod Int32.modulus
  /\ Int32.in_range (size_from_shape shape)
  /\ size_from_shape shape <> shape_product shape.
Proof.
  intros Hover. rewrite size_from_shape_wrap.
  split; [reflexivity | split; [apply wrap_congruent | split]].
  - auto with int32.
  - intros Heq. apply Hover. apply wrap_fixed_iff, Heq.
Qed.

Lemma size_from_shape_overflow_wraps_witness :
  ~ Int32.in_range (shape_product [65536; 65536])
  /\ size_from_shape [65536; 65536] = Int32.wrap 4294967296
  /\ size_from_shape [65536; 65536] = 0.
Proof.
  assert (H : ~ Int32.in_range (shape_product [65536; 65536]))
    by int32_range.
  split; [exact H | split].
  - exact (proj1 (size_from_shape_overflow_wraps [65536; 65536] H)).
  - reflexivity.
Defined.

(** C5: a shape with an extent equal to 0, at any position and whatever the
    other extents, has size 0. *)
Theorem size_from_shape_zero_extent (shape : list Z) :
  In 0 shape -> size_from_shape shape = 0.
Proof.
  intros Hin. rewrite size_from_shape_wrap, shape_product_zero by assumption.
  reflexivity.
Qed.

Lemma size_from_shape_zero_extent_witness :
  In 0 [65536; 65536; 0; -3] /\ size_from_shape [65536; 65536; 0; -3] = 0.
Proof.
  assert (H : In 0 [65536; 65536; 0; -3]) by (simpl; tauto).
  split; [exact H | exact (size_from_shape_zero_extent _ H)].
Defined.

(** C7: the size is invariant under reordering of the extents: for every
    shape [S] and every permutation [S'] of it, [size_from_shape S] equals
    [size_from_shape S']. *)
Theorem size_from_shape_Permutation (S S' : list Z) :
  Permutation S S' -> size_from_shape S = size_from_shape S'.
Proof.
  intros Hperm. rewrite !size_from_shape_wrap.
  f_equal. apply shape_product_Permutation, Hperm.
Qed.

Lemma size_from_shape_Permutation_witness :
  Permutation [2; 3; 4] [4; 2; 3]
  /\ size_from_shape [2; 3; 4] = size_from_shape [4; 2; 3].
Proof.
  assert (H : Permutation [2; 3; 4] [4; 2; 3]).
  { apply Permutation_sym.
    apply (Permutation_cons_app [2; 3] [] 4). apply Permutation_refl. }
  split; [exact H | exact (size_from_shape_Permutation _ _ H)].
Defined.

(** C9: the size is multiplicative over concatenation, in the arithmetic of
    the accumulator: [size_from_shape (s1 ++ s2)] is the 32-bit product of
    [size_from_shape s1] and [size_from_shape s2]. *)
Theorem size_from_shape_app (s1 s2 : list Z) :
  size_from_shape (s1 ++ s2)
  = Int32.mul (size_from_shape s1) (size_from_shape s2).
Proof.
  unfold Int32.mul. rewrite !size_from_shape_wrap, shape_product_app.
  rewrite wrap_mul_l, wrap_mul_r. reflexivity.
Qed.

(** C8: [size_from_shape] is deterministic and pure.  Two complete calls on
    the same shape, started in any two states of the process (here: any two
    contents of stdout), return the same value, and each leaves the state it
    started in untouched. *)
Theorem size_from_shape_deterministic_pure
    (shape : list Z) (out1 out1' out2 out2' : stream) (r1 r2 : Z) :
  returns out1 shape r1 out1' ->
  returns out2 shape r2 out2' ->
  r1 = r2 /\ out1' = out1 /\ out2' = out2.
Proof.
  intros H1 H2.
  apply returns_inv in H1. apply returns_inv in H2.
  destruct H1 as [-> ->], H2 as [-> ->]. auto.
Qed.

Lemma size_from_shape_deterministic_pure_witness :
  returns [] [2; 3; 4] 24 []
  /\ returns ["[]"%string] [2; 3; 4] 24 ["[]"%string]
  /\ (24 = 24 /\ ([] : stream) = [] /\ ["[]"%string] = ["[]"%string]).
Proof.
  assert (H1 : returns [] [2; 3; 4] 24 []).
  { exists (Frame [] 24 []).
    split; [apply (steps_run [] [2; 3; 4] 1) | repeat split]. }
  assert (H2 : returns ["[]"%string] [2; 3; 4] 24 ["[]"%string]).
  { exists (Frame ["[]"%string] 24 []).
    split; [apply (steps_run ["[]"%string] [2; 3; 4] 1) | repeat split]. }
  split; [exact H1 | split; [exact H2 |]].
  exact (size_from_shape_deterministic_pure _ _ _ _ _ _ _ H1 H2).
Defined.

(** C6: neither helper has a failure outcome.  Every call of
    [size_from_shape] runs to its [return] and every call of [log_vector]
    returns after writing to stdout.  [size_from_shape] validates nothing:
    on a shape with a negative extent it still returns the product of the
    extents, reduced to 32 bits, which is the exact (negative or
    sign-flipped) product whenever that is representable. *)
Theorem no_failure_no_validation (shape : list Z) (out : stream) :
  returns out shape (size_from_shape shape) out
  /\ (exists out', log_vector shape out = (tt, out'))
  /\ (Exists (fun v => v < 0) shape ->
      size_from_shape shape = Int32.wrap (shape_product shape)
      /\ (Int32.in_range (shape_product shape) ->
          size_from_shape shape = shape_product shape)).
Proof.
  split; [apply size_from_shape_returns | split].
  - eexists. apply log_vector_writes.
  - intros _. split.
    + apply size_from_shape_wrap.
    + intros Hrange. rewrite size_from_shape_wrap. apply wrap_small, Hrange.
Qed.

Lemma no_failure_no_validation_witness :
  Exists (fun v => v < 0) [-2; 3; 5]
  /\ Int32.in_range (shape_product [-2; 3; 5])
  /\ size_from_shape [-2; 3; 5] = -30.
Proof.
  assert (Hneg : Exists (fun v => v < 0) [-2; 3; 5])
    by (apply Exists_cons_hd; reflexivity).
  assert (Hrange : Int32.in_range (shape_product [-2; 3; 5]))
    by int32_range.
  split; [exact Hneg | split; [exact Hrange |]].
  exact (proj2 (proj2 (proj2 (no_failure_no_validation [-2; 3; 5] []))
                 Hneg) Hrange).
Defined.

(* ================================================================= *)
(** ** Properties of [log_vector] *)

(** C4: for every sequence [v] of integers, one call of [log_vector] appends
    to stdout an opening bracket, then for each value in order its decimal
    numeral followed by a comma (also after the last one), then a closing
    bracket and a line feed.  The text is one line: the line feed at its end
    is the only one in it.  The numeral is the decimal representation of the
    value: reading it gives the value back.  The empty sequence gives
    [[]] and [[1;2;3]] gives [[1,2,3,]], each followed by the line feed. *)
Theorem log_vector_emits_line :
  (forall (v : list Z) (out : stream),
      text (snd (log_vector v out))
      = (text out ++ "[" ++ items v ++ "]" ++ String LF "")%string)
  /\ (forall v : list Z,
         emitted v = (("[" ++ items v ++ "]") ++ String LF "")%string
         /\ count_char LF ("[" ++ items v ++ "]")%string = 0%nat)
  /\ items [] = ""%string
  /\ (forall (value : Z) (v : list Z),
         items (value :: v) = (decimal value ++ "," ++ items v)%string)
  /\ (forall value : Z, read_decimal (decimal value) = Some value)
  /\ emitted [] = ("[]" ++ String LF "")%string
  /\ emitted [1; 2; 3] = ("[1,2,3,]" ++ String LF "")%string.
Proof.
  split; [|split; [|split; [|split; [|split; [|split]]]]].
  - intros v out. apply text_log_vector.
  - intros v. split.
    + unfold emitted. rewrite text_log_vector.
      cbn [text fold_right String.append].
      rewrite append_assoc. reflexivity.
    + cbn [String.append count_char].
      rewrite count_char_app, count_LF_items. reflexivity.
  - reflexivity.
  - intros value v. unfold items, item. cbn [map text fold_right].
    rewrite append_assoc. reflexivity.
  - apply read_decimal_decimal.
  - reflexivity.
  - reflexivity.
Qed.

(* ================================================================= *)
(** ** Further properties of [size_from_shape] *)

Section ShapeProductOrder.

Lemma shape_product_positive (shape : list Z) :
  Forall (fun e => 1 <= e) shape -> 1 <= shape_product shape.
Proof.
  induction 1 as [|e shape He _ IH].
  - rewrite shape_product_nil. lia.
  - rewrite shape_product_cons. nia.
Qed.

Lemma shape_product_zero_inv (shape : list Z) :
  shape_product shape = 0 -> In 0 shape.
Proof.
  induction shape as [|e shape IH].
  - rewrite shape_product_nil. discriminate.
  - rewrite shape_product_cons. intros H.
    apply Z.mul_eq_0 in H. destruct H as [->|H].
    + left. reflexivity.
    + right. auto.
Qed.

(** The product around one extent. *)
Lemma shape_product_split (s1 s2 : list Z) (v : Z) :
  shape_product (s1 ++ v :: s2)
  = shape_product s1 * v * shape_product s2.
Proof. rewrite shape_product_app, shape_product_cons. lia. Qed.

(** Every frame of a run started with accumulator [prod] on [shape]. *)
Lemma steps_invariant (out : stream) (shape : list Z) (prod : Z) (f : frame) :
  steps (Frame out prod shape) f ->
  fr_stdout f = out
  /\ exists k : nat,
       (k <= List.length shape)%nat
       /\ fr_rest f = skipn k shape
       /\ fr_prod f
          = fold_left (fun p v => Int32.mul p v) (firstn k shape) prod.
Proof.
  intros Hrun. remember (Frame out prod shape) as f0 eqn:Hf0.
  revert out prod shape Hf0.
  induction Hrun as [f|f g h Hfg _ IH]; intros out prod shape ->.
  - split; [reflexivity|].
    exists 0%nat. cbn. repeat split. lia.
  - inversion Hfg; subst.
    destruct (IH _ _ _ eq_refl) as (Hout & k & Hk & Hrest & Hprod).
    split; [exact Hout|].
    exists (S k). cbn. repeat split; auto. lia.
Qed.

End ShapeProductOrder.

(** X1, the invariant of the loop: in every frame that a call on [shape]
    passes through, stdout is as on entry and, for some [k] not above the
    rank, the iterator has the extents from position [k] on still to
    visit and [prod] is the size of the first [k] extents. *)
Theorem size_from_shape_loop_invariant
    (out : stream) (shape : list Z) (f : frame) :
  steps (enter out shape) f ->
  fr_stdout f = out
  /\ exists k : nat,
       (k <= List.length shape)%nat
       /\ fr_rest f = skipn k shape
       /\ fr_prod f = size_from_shape (firstn k shape).
Proof. apply steps_invariant. Qed.

Lemma size_from_shape_loop_invariant_witness :
  steps (enter [] [2; 3; 4]) (Frame [] 6 [4])
  /\ exists k : nat,
       (k <= 3)%nat
       /\ [4] = skipn k [2; 3; 4]
       /\ 6 = size_from_shape (firstn k [2; 3; 4]).
Proof.
  assert (H : steps (enter [] [2; 3; 4]) (Frame [] 6 [4])).
  { econstructor 2; [apply (step_mul [] 1 2 [3; 4])|].
    econstructor 2; [apply (step_mul [] 2 3 [4])|].
    constructor 1. }
  split; [exact H|].
  exact (proj2 (size_from_shape_loop_invariant [] [2; 3; 4] _ H)).
Defined.

(** X2, no intermediate overflow: when every extent is at least 1 and the
    product of all extents is representable, then at the iteration that
    multiplies an extent [v] in, the accumulator holds the exact product of
    the extents before [v], and the exact product of the accumulator and
    [v] is representable, so that [prod *= v] does not wrap. *)
Theorem size_from_shape_no_intermediate_overflow
    (s1 s2 : list Z) (v : Z) :
  Forall (fun e => 1 <= e) (s1 ++ v :: s2) ->
  Int32.in_range (shape_product (s1 ++ v :: s2)) ->
  size_from_shape s1 = shape_product s1
  /\ Int32.in_range (size_from_shape s1 * v)
  /\ Int32.mul (size_from_shape s1) v = size_from_shape s1 * v.
Proof.
  intros Hpos Hrange.
  apply Forall_app in Hpos. destruct Hpos as [Hpos1 Hpos2].
  apply Forall_cons_iff in Hpos2. destruct Hpos2 as [Hv Hpos2].
  apply shape_product_positive in Hpos1, Hpos2.
  rewrite shape_product_split in Hrange.
  unfold Int32.in_range, Int32.min_int, Int32.max_int in *.
  rewrite half_modulus_value in *.
  assert (H1 : size_from_shape s1 = shape_product s1).
  { rewrite size_from_shape_wrap. apply wrap_small.
    unfold Int32.in_range, Int32.min_int, Int32.max_int.
    rewrite half_modulus_value. nia. }
  assert (H2 : -2147483648 <= shape_product s1 * v <= 2147483648 - 1)
    by nia.
  rewrite H1. split; [reflexivity | split; [exact H2|]].
  apply wrap_small.
  unfold Int32.in_range, Int32.min_int, Int32.max_int.
  rewrite half_modulus_value. exact H2.
Qed.

Lemma size_from_shape_no_intermediate_overflow_witness :
  Forall (fun e => 1 <= e) ([1024; 1024] ++ 2047 :: [1])
  /\ Int32.in_range (shape_product ([1024; 1024] ++ 2047 :: [1]))
  /\ Int32.mul (size_from_shape [1024; 1024]) 2047
     = size_from_shape [1024; 1024] * 2047.
Proof.
  assert (H1 : Forall (fun e => 1 <= e) ([1024; 1024] ++ 2047 :: [1]))
    by (repeat constructor; discriminate).
  assert (H2 : Int32.in_range (shape_product ([1024; 1024] ++ 2047 :: [1])))
    by int32_range.
  split; [exact H1 | split; [exact H2|]].
  exact (proj2 (proj2
    (size_from_shape_no_intermediate_overflow [1024; 1024] [1] 2047 H1 H2))).
Defined.

(** X3, collapsing axes: replacing any contiguous run [s2] of extents by the
    single extent [size_from_shape s2] leaves the size unchanged.  With [s2]
    empty this says that an extent 1 may be inserted anywhere; with [s1] and
    [s3] empty, that flattening to rank 1 keeps the size. *)
Theorem size_from_shape_collapse (s1 s2 s3 : list Z) :
  size_from_shape (s1 ++ size_from_shape s2 :: s3)
  = size_from_shape (s1 ++ s2 ++ s3).
Proof.
  rewrite !size_from_shape_wrap, shape_product_split, !shape_product_app.
  rewrite <- (wrap_mul_l (shape_product s1 * Int32.wrap (shape_product s2))).
  rewrite wrap_mul_r, wrap_mul_l.
  f_equal. lia.
Qed.

(** X4, when two shapes have the same size: exactly when the products of
    their extents are congruent modulo 2^32.  Equal sizes do not imply equal
    element counts once a product leaves the [int] range. *)
Theorem size_from_shape_eq_iff_congruent (s1 s2 : list Z) :
  size_from_shape s1 = size_from_shape s2
  <-> shape_product s1 mod Int32.modulus = shape_product s2 mod Int32.modulus.
Proof.
  rewrite !size_from_shape_wrap. split.
  - intros H. rewrite <- (wrap_congruent (shape_product s1)), H.
    apply wrap_congruent.
  - apply wrap_eq_of_congruent.
Qed.

(** X5, the converse of the zero-extent rule: for a shape whose product is
    representable, the size is 0 exactly when some extent is 0.  (Without
    the hypothesis the size can be 0 with no zero extent, as on
    [[65536; 65536]].) *)
Theorem size_from_shape_zero_iff (shape : list Z) :
  Int32.in_range (shape_product shape) ->
  (size_from_shape shape = 0 <-> In 0 shape).
Proof.
  intros Hrange. rewrite size_from_shape_wrap, wrap_small by assumption.
  split; [apply shape_product_zero_inv | apply shape_product_zero].
Qed.

Lemma size_from_shape_zero_iff_witness :
  Int32.in_range (shape_product [7; 0; 5])
  /\ (size_from_shape [7; 0; 5] = 0 <-> In 0 [7; 0; 5]).
Proof.
  assert (H : Int32.in_range (shape_product [7; 0; 5])) by int32_range.
  split; [exact H | exact (size_from_shape_zero_iff [7; 0; 5] H)].
Defined.

(** X6, sign flip: negating one extent (in [int] arithmetic) negates the
    size (in [int] arithmetic), wherever the extent stands. *)
Theorem size_from_shape_negate_extent (s1 s2 : list Z) (v : Z) :
  size_from_shape (s1 ++ Int32.wrap (- v) :: s2)
  = Int32.wrap (- size_from_shape (s1 ++ v :: s2)).
Proof.
  rewrite !size_from_shape_wrap, !shape_product_split.
  replace (shape_product s1 * Int32.wrap (- v) * shape_product s2)
    with (Int32.wrap (- v) * (shape_product s1 * shape_product s2)) by lia.
  rewrite wrap_mul_l.
  replace (- Int32.wrap (shape_product s1 * v * shape_product s2))
    with (-1 * Int32.wrap (shape_product s1 * v * shape_product s2)) by lia.
  rewrite wrap_mul_r.
  f_equal. lia.
Qed.

(** X7, a lower bound: when every extent is at least 1 and the product is
    representable, the size is at least as large as every single extent (and
    so at least 1 when the shape is not empty). *)
Theorem size_from_shape_ge_extent (shape : list Z) (v : Z) :
  Forall (fun e => 1 <= e) shape ->
  Int32.in_range (shape_product shape) ->
  In v shape ->
  1 <= v <= size_from_shape shape.
Proof.
  intros Hpos Hrange Hin.
  rewrite size_from_shape_wrap, wrap_small by assumption.
  apply in_split in Hin. destruct Hin as (s1 & s2 & ->).
  apply Forall_app in Hpos. destruct Hpos as [Hpos1 Hpos2].
  apply Forall_cons_iff in Hpos2. destruct Hpos2 as [Hv Hpos2].
  apply shape_product_positive in Hpos1, Hpos2.
  rewrite shape_product_split.
  assert (H1 : v <= shape_product s1 * v) by nia.
  assert (H2 : shape_product s1 * v
               <= shape_product s1 * v * shape_product s2) by nia.
  lia.
Qed.

Lemma size_from_shape_ge_extent_witness :
  Forall (fun e => 1 <= e) [2; 3; 4]
  /\ Int32.in_range (shape_product [2; 3; 4])
  /\ In 3 [2; 3; 4]
  /\ 1 <= 3 <= size_from_shape [2; 3; 4].
Proof.
  assert (H1 : Forall (fun e => 1 <= e) [2; 3; 4])
    by (repeat constructor; discriminate).
  assert (H2 : Int32.in_range (shape_product [2; 3; 4])) by int32_range.
  assert (H3 : In 3 [2; 3; 4]) by (simpl; tauto).
  split; [exact H1 | split; [exact H2 | split; [exact H3|]]].
  exact (size_from_shape_ge_extent [2; 3; 4] 3 H1 H2 H3).
Defined.

(* ================================================================= *)
(** ** Further properties of [log_vector] *)

Section Line.

Local Open Scope string_scope.

Lemma emitted_text (v : list Z) :
  emitted v = String "[" (items v ++ String "]" (String LF "")).
Proof. unfold emitted. rewrite text_log_vector. reflexivity. Qed.

Lemma items_cons (value : Z) (v : list Z) :
  items (value :: v) = decimal value ++ String "," (items v).
Proof.
  unfold items, item. cbn [map text fold_right].
  rewrite append_assoc. reflexivity.
Qed.

(** A character that is no digit and no sign does not occur in a numeral. *)
Lemma count_char_uint (c : ascii) (d : Decimal.uint) :
  numeral_char c = false ->
  count_char c (NilEmpty.string_of_uint d) = 0%nat.
Proof.
  unfold numeral_char. cbn [existsb]. intros H.
  repeat (apply Bool.orb_false_iff in H; destruct H as [? H]).
  induction d; cbn [NilEmpty.string_of_uint count_char];
    repeat match goal with
           | E : Ascii.eqb c _ = false |- _ => rewrite E; clear E
           end;
    auto.
Qed.

Lemma count_char_decimal (c : ascii) (z : Z) :
  numeral_char c = false -> count_char c (decimal z) = 0%nat.
Proof.
  intros H. pose proof (count_char_uint c) as Hd.
  assert (Hnz : forall d, count_char c (NilZero.string_of_uint d) = 0%nat).
  { intros d. unfold NilZero.string_of_uint.
    destruct d; try (apply Hd; exact H).
    unfold numeral_char in H. cbn [existsb] in H.
    apply Bool.orb_false_iff in H. destruct H as [_ H].
    apply Bool.orb_false_iff in H. destruct H as [H _].
    cbn [count_char]. rewrite H. reflexivity. }
  unfold decimal, NilZero.string_of_int.
  destruct (Z.to_int z) as [d|d]; [apply Hnz|].
  cbn [count_char]. rewrite Hnz.
  unfold numeral_char in H. cbn [existsb] in H.
  apply Bool.orb_false_iff in H. destruct H as [H _].
  rewrite H. reflexivity.
Qed.

Lemma count_char_items (c : ascii) (v : list Z) :
  numeral_char c = false ->
  count_char c (items v)
  = if Ascii.eqb c "," then List.length v else 0%nat.
Proof.
  intros H. induction v as [|value v IH].
  - destruct (Ascii.eqb c ","); reflexivity.
  - rewrite items_cons, count_char_app, count_char_decimal by exact H.
    cbn [count_char]. rewrite IH.
    destruct (Ascii.eqb c ","); reflexivity.
Qed.

(** Two texts cut at a separator that occurs in neither head. *)
Lemma append_separator_inj (c : ascii) (s1 s2 r1 r2 : string) :
  count_char c s1 = 0%nat -> count_char c s2 = 0%nat ->
  s1 ++ String c r1 = s2 ++ String c r2 ->
  s1 = s2 /\ r1 = r2.
Proof.
  revert s2. induction s1 as [|a s1 IH]; intros [|b s2]; cbn; intros H1 H2 E.
  - injection E as ->. auto.
  - injection E as -> _. rewrite Ascii.eqb_refl in H2. discriminate.
  - injection E as -> _. rewrite Ascii.eqb_refl in H1. discriminate.
  - injection E as -> E.
    destruct (Ascii.eqb c b); [discriminate|].
    destruct (IH s2 H1 H2 E) as [-> ->]. auto.
Qed.

Lemma items_inj (v1 v2 : list Z) (tail : string) :
  count_char "," tail = 0%nat ->
  items v1 ++ tail = items v2 ++ tail -> v1 = v2.
Proof.
  intros Htail. revert v2.
  induction v1 as [|x v1 IH]; intros [|y v2] E.
  - reflexivity.
  - exfalso. apply (f_equal (count_char ",")) in E.
    rewrite !count_char_app, !count_char_items, Htail in E by reflexivity.
    cbn in E. discriminate.
  - exfalso. apply (f_equal (count_char ",")) in E.
    rewrite !count_char_app, !count_char_items, Htail in E by reflexivity.
    cbn in E. discriminate.
  - rewrite !items_cons, !append_assoc in E. cbn [String.append] in E.
    apply append_separator_inj in E;
      try (apply count_char_decimal; reflexivity).
    destruct E as [Hxy E].
    apply decimal_inj in Hxy. subst y.
    f_equal. apply IH, E.
Qed.

End Line.

(** X8, calls in sequence: after [log_vector v1; log_vector v2;] stdout
    holds what it held before, then the line of [v1], then the line of [v2],
    each line as a call on its own prints it. *)
Theorem log_vector_sequence (v1 v2 : list Z) (out : stream) :
  text (snd ((log_vector v1 ;; log_vector v2) out))
  = (text out ++ emitted v1 ++ emitted v2)%string.
Proof.
  unfold bind. rewrite (log_vector_writes v1 out).
  rewrite text_log_vector, text_app, append_assoc, !emitted_text.
  f_equal. f_equal.
  rewrite !text_app. reflexivity.
Qed.

(** X9, the writes of one call: [log_vector] only appends to stdout, in
    exactly [length v + 2] separate [printf] calls, and what they write
    together does not depend on what stdout held before. *)
Theorem log_vector_appends (v : list Z) (out : stream) :
  exists chunks : list string,
    snd (log_vector v out) = out ++ chunks
    /\ List.length chunks = (List.length v + 2)%nat
    /\ text chunks = emitted v.
Proof.
  exists (["["%string] ++ map item v ++ [String "]" (String LF "")]).
  rewrite log_vector_writes. cbn [snd]. split; [reflexivity | split].
  - rewrite !length_app, length_map. cbn. lia.
  - rewrite emitted_text, !text_app. reflexivity.
Qed.

(** X10, the line determines the sequence: two sequences of integers that
    [log_vector] prints as the same text are equal. *)
Theorem log_vector_injective (v1 v2 : list Z) :
  emitted v1 = emitted v2 -> v1 = v2.
Proof.
  rewrite !emitted_text. intros [= E].
  apply (items_inj v1 v2 (String "]" (String LF ""))); [reflexivity | exact E].
Qed.

Lemma log_vector_injective_witness :
  emitted [1; -2] = emitted [1; -2] /\ [1; -2] = [1; -2].
Proof.
  assert (H : emitted [1; -2] = emitted [1; -2]) by reflexivity.
  split; [exact H | exact (log_vector_injective [1; -2] [1; -2] H)].
Defined.

(** X11, the punctuation of the line: it has exactly one comma per element
    (so none for the empty sequence, and one after the last element), one
    opening and one closing bracket. *)
Theorem log_vector_punctuation (v : list Z) :
  count_char ","%char (emitted v) = List.length v
  /\ count_char "["%char (emitted v) = 1%nat
  /\ count_char "]"%char (emitted v) = 1%nat.
Proof.
  rewrite emitted_text. cbn [count_char].
  rewrite !count_char_app, !count_char_items by reflexivity.
  cbn. repeat split; lia.
Qed.

(* ================================================================= *)
(** ** [log_vector] called from two threads *)

Section Schedules.

Local Open Scope string_scope.

Lemma writes_pieces (v : list Z) :
  writes v = ("[" :: map item v ++ [String "]" (String LF "")])%list.
Proof. unfold writes. rewrite log_vector_writes. reflexivity. Qed.

Lemma text_writes (v : list Z) : text (writes v) = emitted v.
Proof. reflexivity. Qed.

Lemma interleave_only_left {A : Type} (l : list A) : interleave l [] l.
Proof. induction l; constructor; assumption. Qed.

Lemma interleave_only_right {A : Type} (l : list A) : interleave [] l l.
Proof. induction l; constructor; assumption. Qed.

(** One thread runs its call to the end before the other starts. *)
Lemma interleave_left_first {A : Type} (l1 l2 : list A) :
  interleave l1 l2 (l1 ++ l2).
Proof.
  induction l1 as [|a l1 IH]; cbn [app].
  - apply interleave_only_right.
  - constructor. exact IH.
Qed.

Lemma interleave_right_first {A : Type} (l1 l2 : list A) :
  interleave l1 l2 (l2 ++ l1).
Proof.
  induction l2 as [|a l2 IH]; cbn [app].
  - apply interleave_only_left.
  - constructor. exact IH.
Qed.

Lemma interleave_Forall {A : Type} (P : A -> Prop) (l1 l2 l : list A) :
  interleave l1 l2 l -> Forall P l1 -> Forall P l2 -> Forall P l.
Proof.
  induction 1 as [|a l1 l2 l _ IH|a l1 l2 l _ IH]; intros H1 H2.
  - constructor.
  - inversion H1; subst. constructor; auto.
  - inversion H2; subst. constructor; auto.
Qed.

(** A schedule neither drops nor adds a character. *)
Lemma interleave_count_char (c : ascii) (l1 l2 l : list string) :
  interleave l1 l2 l ->
  count_char c (text l)
  = (count_char c (text l1) + count_char c (text l2))%nat.
Proof.
  assert (Hcons : forall a l, text (a :: l) = a ++ text l) by reflexivity.
  induction 1 as [|a l1 l2 l _ IH|a l1 l2 l _ IH].
  - reflexivity.
  - rewrite !Hcons, !count_char_app, IH. lia.
  - rewrite !Hcons, !count_char_app, IH. lia.
Qed.

Lemma writes_are_pieces (vs v : list Z) :
  incl v vs -> Forall (piece vs) (writes v).
Proof.
  intros Hincl. rewrite writes_pieces.
  constructor; [left; reflexivity|].
  apply Forall_app. split.
  - apply Forall_forall. intros s Hs.
    apply in_map_iff in Hs. destruct Hs as (value & <- & Hin).
    right. right. exists value. split; [apply Hincl, Hin | reflexivity].
  - constructor; [|constructor]. right. left. reflexivity.
Qed.

(** A text that begins with a numeral and a separator does not begin with a
    character that is neither. *)
Lemma append_head_neq (c d : ascii) (s1 r s : string) :
  count_char c s1 = 0%nat -> d <> c -> s1 ++ String d r <> String c s.
Proof.
  intros Hcount Hdc E. destruct s1 as [|a s1]; cbn in E, Hcount.
  - injection E as E _. auto.
  - injection E as -> _. rewrite Ascii.eqb_refl in Hcount. discriminate.
Qed.

(** What follows the opening bracket of a line is not an opening bracket. *)
Lemma items_head_not_open (v : list Z) (r s : string) :
  items v ++ String "]" r <> String "[" s.
Proof.
  destruct v as [|value v].
  - cbn. discriminate.
  - rewrite items_cons, append_assoc. cbn [String.append].
    apply append_head_neq.
    + apply count_char_decimal. reflexivity.
    + discriminate.
Qed.

(** The schedule in which the second thread runs its whole call right after
    the first [printf] of the first thread. *)
Lemma preempted_schedule (v1 v2 : list Z) :
  interleave (writes v1) (writes v2)
    ("[" :: writes v2 ++ map item v1 ++ [String "]" (String LF "")])%list
  /\ forall w : list Z,
       text ("[" :: writes v2 ++ map item v1
                 ++ [String "]" (String LF "")])%list
       <> emitted w ++ emitted v2
       /\ text ("[" :: writes v2 ++ map item v1
                    ++ [String "]" (String LF "")])%list
          <> emitted w ++ emitted v1.
Proof.
  split.
  - rewrite (writes_pieces v1). constructor. apply interleave_right_first.
  - intros w.
    assert (Hhead : forall tail rest : string,
               text ("[" :: writes v2 ++ tail :: nil)%list
               <> emitted w ++ rest).
    { intros tail rest. rewrite writes_pieces, emitted_text.
      cbn [text fold_right app String.append]. intros [= E].
      symmetry in E. rewrite append_assoc in E. cbn [String.append] in E.
      exact (items_head_not_open _ _ _ E). }
    assert (Htext : text ("[" :: writes v2 ++ map item v1
                              ++ [String "]" (String LF "")])%list
                    = text ("[" :: writes v2
                              ++ [(items v1
                                   ++ String "]" (String LF ""))%string])%list).
    { assert (Hcons : forall a l, text (a :: l) = a ++ text l)
        by reflexivity.
      rewrite !Hcons, !text_app, !Hcons.
      change (text nil) with "". rewrite !append_nil_r.
      reflexivity. }
    rewrite Htext. split; apply Hhead.
Qed.

End Schedules.

(** C10, as stated, fails: while one thread prints the sequence 1 and
    another prints the sequence 2, the scheduler can run their [printf]
    calls in turn.  stdout then receives the two opening brackets, then 1
    with its comma, then 2 with its comma, then the closing bracket with
    the line feed twice: neither line followed by the other. *)
Lemma log_vector_lines_can_interleave :
  interleave (writes [1]) (writes [2])
    ["["; "["; "1,"; "2,";
     String "]" (String LF ""); String "]" (String LF "")]%string
  /\ text ["["; "["; "1,"; "2,";
           String "]" (String LF ""); String "]" (String LF "")]%string
     = ("[[1,2,]" ++ String LF ("]" ++ String LF ""))%string
  /\ ~ lines_not_interleaved [1] [2].
Proof.
  assert (H : interleave (writes [1]) (writes [2])
                ["["; "["; "1,"; "2,";
                 String "]" (String LF ""); String "]" (String LF "")]%string).
  { apply (interleave_left "["%string).
    apply (interleave_right "["%string).
    apply (interleave_left "1,"%string).
    apply (interleave_right "2,"%string).
    apply (interleave_left (String "]" (String LF ""))).
    apply (interleave_right (String "]" (String LF ""))).
    constructor. }
  split; [exact H | split; [reflexivity|]].
  intros Hno. destruct (Hno _ H) as [E|E]; discriminate E.
Qed.

(** C10, amended: what two concurrent calls of [log_vector] guarantee is
    line-atomicity only when they do not overlap, and piece-atomicity
    otherwise.  (1) When one call runs to its end before the other starts,
    stdout receives the two whole lines one after the other.  (2) In every
    schedule stdout receives a sequence of whole [printf] outputs (an
    opening bracket, a value with its comma, or a closing bracket with the
    line feed) and exactly the characters of the two lines, none lost or
    added.  (3) The lines themselves are not atomic: for every two
    sequences there is a schedule whose text is neither line followed by
    the other. *)
Theorem log_vector_concurrent_pieces (v1 v2 : list Z) :
  (interleave (writes v1) (writes v2) (writes v1 ++ writes v2)
   /\ text (writes v1 ++ writes v2) = (emitted v1 ++ emitted v2)%string)
  /\ (forall out : stream,
         interleave (writes v1) (writes v2) out ->
         Forall (piece (v1 ++ v2)) out
         /\ forall c : ascii,
              count_char c (text out)
              = (count_char c (emitted v1) + count_char c (emitted v2))%nat)
  /\ (exists out : stream,
         interleave (writes v1) (writes v2) out
         /\ text out <> (emitted v1 ++ emitted v2)%string
         /\ text out <> (emitted v2 ++ emitted v1)%string).
Proof.
  split; [|split].
  - split; [apply interleave_left_first|].
    rewrite text_app. reflexivity.
  - intros out Hout. split.
    + apply (interleave_Forall _ _ _ _ Hout); apply writes_are_pieces.
      * apply incl_appl, incl_refl.
      * apply incl_appr, incl_refl.
    + intros c. rewrite (interleave_count_char c _ _ _ Hout).
      reflexivity.
  - destruct (preempted_schedule v1 v2) as [Hsched Htext].
    eexists. split; [exact Hsched|]. split.
    + apply (Htext v1).
    + apply (Htext v2).
Qed.

Lemma log_vector_concurrent_pieces_witness :
  interleave (writes [1]) (writes [2])
    ["["; "["; "1,"; "2,";
     String "]" (String LF ""); String "]" (String LF "")]%string
  /\ Forall (piece ([1] ++ [2]))
       ["["; "["; "1,"; "2,";
        String "]" (String LF ""); String "]" (String LF "")]%string.
Proof.
  assert (H : interleave (writes [1]) (writes [2])
                ["["; "["; "1,"; "2,";
                 String "]" (String LF ""); String "]" (String LF "")]%string).
  { apply (interleave_left "["%string).
    apply (interleave_right "["%string).
    apply (interleave_left "1,"%string).
    apply (interleave_right "2,"%string).
    apply (interleave_left (String "]" (String LF ""))).
    apply (interleave_right (String "]" (String LF ""))).
    constructor. }
  split; [exact H|].
  exact (proj1 (proj1 (proj2 (log_vector_concurrent_pieces [1] [2])) _ H)).
Defined.
